(** * Salary-In-Hand: a shallow embedding of [app.py] and its specification

    The program is a Streamlit page ([app.py]) with two pure functions,
    [calculate_tax] and [indian_number_format], and a computation block run on
    form submission.  The Python code computes with floats; this development
    models every number as an exact rational ([Q]), the fixed-point/decimal
    reading of the arithmetic the specification asks for.  Python's [round]
    and the [:.2f] format are modelled as round-half-to-even of the exact
    value, and strings as lists of ASCII characters. *)

From Stdlib Require Import QArith Qabs Lqa ZArith Lia List Ascii String Bool.
From Stdlib Require Import DecimalString DecimalN.
Import ListNotations.

Open Scope Q_scope.

(** ** [calculate_tax] (app.py, lines 64-98) *)
Module TaxCalculator.

(** The bracket table: [(income limit, tax rate)], highest bracket first. *)
Definition brackets : list (Q * Q) :=
  [ (2400000, 0.30);
    (2000000, 0.25);
    (1600000, 0.20);
    (1200000, 0.15);
    (800000,  0.10);
    (400000,  0.05) ].

(** The [for limit, rate in brackets] loop, with the loop state
    ([taxable_amount], [tax_value]) passed explicitly. *)
Fixpoint bracket_loop (bs : list (Q * Q)) (taxable_amount tax_value : Q) : Q :=
  match bs with
  | [] => tax_value
  | (limit, rate) :: bs' =>
      if Qlt_le_dec limit taxable_amount
      then bracket_loop bs' limit (tax_value + (taxable_amount - limit) * rate)
      else bracket_loop bs' taxable_amount tax_value
  end.

Definition calculate_tax (taxable_amount : Q) : Q :=
  bracket_loop brackets taxable_amount 0.

End TaxCalculator.

(** ** The computation block of the submitted form (app.py, lines 148-184) *)
Module SalaryPipeline.
Import TaxCalculator.

Record SalaryBreakdown := {
  variable_pay : Q;
  ctc_amount : Q;
  basic_salary : Q;
  employer_nps_contribution : Q;
  employer_pf_contribution : Q;
  employee_pf_contribution : Q;
  gratuity_contribution : Q;
  professional_tax : Q;
  taxable_amount : Q;
  tax_amount : Q;
  cess_amount : Q;
  in_hand_salary : Q
}.

Definition compute (inp_fixed_salary inp_nps : Q) : SalaryBreakdown :=
  let variable_pay := inp_fixed_salary * 0.14 in
  let ctc_amount := inp_fixed_salary + variable_pay in
  let basic_salary := inp_fixed_salary * 0.40 in
  let employer_nps_contribution := (inp_nps / 100) * basic_salary in
  let employer_pf_contribution := 0.12 * basic_salary in
  let employee_pf_contribution := 0.12 * basic_salary in
  let gratuity_contribution := 0.048 * basic_salary in
  let professional_tax := 300 * 12 in
  let taxable_amount := inp_fixed_salary - employer_nps_contribution
      - employer_pf_contribution - gratuity_contribution - 75000 in
  let tax_amount := calculate_tax taxable_amount in
  let cess_amount := 0.04 * tax_amount in
  let in_hand_salary := inp_fixed_salary - employer_nps_contribution
      - employer_pf_contribution - gratuity_contribution
      - employee_pf_contribution - professional_tax - tax_amount - cess_amount in
  {| variable_pay := variable_pay;
     ctc_amount := ctc_amount;
     basic_salary := basic_salary;
     employer_nps_contribution := employer_nps_contribution;
     employer_pf_contribution := employer_pf_contribution;
     employee_pf_contribution := employee_pf_contribution;
     gratuity_contribution := gratuity_contribution;
     professional_tax := professional_tax;
     taxable_amount := taxable_amount;
     tax_amount := tax_amount;
     cess_amount := cess_amount;
     in_hand_salary := in_hand_salary |}.

End SalaryPipeline.

(** ** [indian_number_format] (app.py, lines 18-61) *)
Module NumberFormatter.

Local Open Scope char_scope.

(** Python's [round] to a whole number: round half to even of the exact value. *)
Definition round_half_even (q : Q) : Z :=
  let n := Qnum q in
  let d := Zpos (Qden q) in
  let fl := (n / d)%Z in
  let r := (n mod d)%Z in
  match Z.compare (2 * r) d with
  | Lt => fl
  | Gt => (fl + 1)%Z
  | Eq => if Z.even fl then fl else (fl + 1)%Z
  end.

(** [round(amount, 2)] *)
Definition py_round2 (amount : Q) : Q := round_half_even (amount * 100) # 100.

Definition digit (n : Z) : ascii := ascii_of_nat (48 + Z.to_nat n).

(** [str(n)] of a non-negative integer. *)
Definition digits_of_Z (n : Z) : list ascii :=
  list_ascii_of_string (NilZero.string_of_uint (N.to_uint (Z.to_N n))).

(** [f"{a:.2f}"] *)
Definition format_2f (a : Q) : list ascii :=
  let k := round_half_even (a * 100) in
  (if Qlt_le_dec a 0 then ["-"] else [])
    ++ digits_of_Z (Z.abs k / 100)
    ++ "." :: [digit ((Z.abs k mod 100) / 10); digit (Z.abs k mod 10)].

(** [s.partition('.')] *)
Fixpoint partition_dot (s : list ascii) : list ascii * list ascii * list ascii :=
  match s with
  | [] => ([], [], [])
  | c :: s' =>
      if Ascii.eqb c "." then ([], ["."], s')
      else let '(a, sep, b) := partition_dot s' in (c :: a, sep, b)
  end.

(** Python slices [s[-k:]] and [s[:-k]] (for [k > 0]). *)
Definition slice_from_end (k : nat) (s : list ascii) : list ascii :=
  skipn (List.length s - k) s.
Definition slice_drop_end (k : nat) (s : list ascii) : list ascii :=
  firstn (List.length s - k) s.

(** The [while len(integer_part) > 0] loop, run with a step budget [fuel]. *)
Fixpoint group_loop (fuel : nat) (integer_part formatted : list ascii) : list ascii :=
  match fuel with
  | O => formatted
  | S fuel' =>
      if Nat.ltb 0 (List.length integer_part)
      then group_loop fuel' (slice_drop_end 2 integer_part)
             (slice_from_end 2 integer_part ++ "," :: formatted)
      else formatted
  end.

Definition indian_number_format (amount : Q) : list ascii :=
  let is_negative := if Qlt_le_dec amount 0 then true else false in
  let amount' := Qabs (py_round2 amount) in
  let '(integer_part, _, decimal_part) := partition_dot (format_2f amount') in
  let n := List.length integer_part in
  let formatted :=
    if Nat.leb n 3 then integer_part
    else group_loop (List.length integer_part) (slice_drop_end 3 integer_part)
           (slice_from_end 3 integer_part) in
  let result := formatted ++ "." :: decimal_part in
  if is_negative then "-" :: result else result.

End NumberFormatter.

(** ** The "In-Hand Salary" table (app.py, lines 214-242): one
    (yearly, monthly) pair of rendered amounts per row. *)
Module InHandTable.
Import SalaryPipeline NumberFormatter.

Definition inhand_table (inp_fixed_salary inp_nps : Q) : list (list ascii * list ascii) :=
  let b := compute inp_fixed_salary inp_nps in
  [ (indian_number_format (ctc_amount b),
     indian_number_format (ctc_amount b / 12));
    (indian_number_format inp_fixed_salary,
     indian_number_format (inp_fixed_salary / 12));
    (indian_number_format (taxable_amount b),
     indian_number_format (taxable_amount b / 12));
    (indian_number_format (tax_amount b),
     indian_number_format (tax_amount b / 12));
    (indian_number_format (cess_amount b),
     indian_number_format (cess_amount b / 12));
    (indian_number_format (employer_nps_contribution b
        + employer_pf_contribution b + employee_pf_contribution b),
     indian_number_format ((employer_nps_contribution b
        + employer_pf_contribution b + employee_pf_contribution b) / 12));
    (indian_number_format (in_hand_salary b),
     indian_number_format (in_hand_salary b / 12)) ].

End InHandTable.

Import TaxCalculator SalaryPipeline NumberFormatter InHandTable.

(** ** Specification-side definitions used by the statements and proofs *)

(** Every rate of a bracket list lies in [0, R]. *)
Definition rates_within (R : Q) (bs : list (Q * Q)) : Prop :=
  Forall (fun p => 0 <= snd p <= R) bs.

Fixpoint join_commas (gs : list (list ascii)) : list ascii :=
  match gs with
  | [] => []
  | [g] => g
  | g :: gs' => g ++ ","%char :: join_commas gs'
  end.

(** [out] is [ds] written in groups: a single group when [ds] has at most 3
    digits; otherwise a first (leftmost) group of 1 or 2 digits, then groups
    of 2, then the rightmost group of 3, separated by commas. *)
Definition indian_grouped (ds out : list ascii) : Prop :=
  exists gs, out = join_commas gs /\ List.concat gs = ds /\
    (((List.length ds <= 3)%nat /\ gs = [ds]) \/
     ((3 < List.length ds)%nat /\
      exists g0 mids glast, gs = g0 :: mids ++ [glast] /\
        (List.length glast = 3)%nat /\
        (List.length g0 = 1 \/ List.length g0 = 2)%nat /\
        Forall (fun g => List.length g = 2)%nat mids)).

(** A decimal digit character. *)
Definition is_digit (c : ascii) : bool :=
  Nat.leb 48 (nat_of_ascii c) && Nat.leb (nat_of_ascii c) 57.

(** The magnitude, in cents, that the formatter renders. *)
Definition cents (amount : Q) : Z := Z.abs (round_half_even (amount * 100)).

(** The integer-part formatting of [indian_number_format] (lines 44-55) as a
    function of the digit string. *)
Definition grouped (ip : list ascii) : list ascii :=
  if Nat.leb (List.length ip) 3 then ip
  else group_loop (List.length ip) (slice_drop_end 3 ip) (slice_from_end 3 ip).

(** The tax as a sum of marginal slabs: the part of the amount inside the
    slab [(lo, hi]] taxed at [rate], and the part above [2,400,000] at 30%. *)
Definition slab (lo hi rate x : Q) : Q :=
  if Qlt_le_dec lo x then (if Qlt_le_dec hi x then rate * (hi - lo) else rate * (x - lo))
  else 0.

Definition top_slab (lo rate x : Q) : Q :=
  if Qlt_le_dec lo x then rate * (x - lo) else 0.

Definition tax_by_slabs (x : Q) : Q :=
  slab 400000 800000 0.05 x + slab 800000 1200000 0.10 x
  + slab 1200000 1600000 0.15 x + slab 1600000 2000000 0.20 x
  + slab 2000000 2400000 0.25 x + top_slab 2400000 0.30 x.

(** Characters other than the decimal point. *)
Definition not_dot (c : ascii) : bool := negb (Ascii.eqb c "."%char).

(** The integer part with its commas removed. *)
Definition remove_commas (s : list ascii) : list ascii :=
  filter (fun c => negb (Ascii.eqb c ","%char)) s.

(** ** Properties of the bracket loop *)

Lemma bracket_loop_acc (bs : list (Q * Q)) :
  forall x t, bracket_loop bs x t == t + bracket_loop bs x 0.
Proof.
  induction bs as [|[l r] bs IH]; intros x t; simpl.
  - ring.
  - destruct (Qlt_le_dec l x).
    + rewrite IH, (IH l (0 + (x - l) * r)). ring.
    + apply IH.
Qed.

Lemma bracket_loop_step_above (l r x : Q) (bs : list (Q * Q)) :
  l < x -> bracket_loop ((l, r) :: bs) x 0 == (x - l) * r + bracket_loop bs l 0.
Proof.
  intros H; simpl. destruct (Qlt_le_dec l x) as [_|H']; [|lra].
  rewrite bracket_loop_acc. ring.
Qed.

Lemma bracket_loop_step_below (l r x : Q) (bs : list (Q * Q)) :
  x <= l -> bracket_loop ((l, r) :: bs) x 0 = bracket_loop bs x 0.
Proof.
  intros H; simpl. destruct (Qlt_le_dec l x) as [H'|_]; [lra|reflexivity].
Qed.

Lemma brackets_rates : rates_within 0.30 brackets.
Proof. repeat constructor; simpl; lra. Qed.

(** The loop never yields a negative tax when every rate is non-negative. *)
Lemma bracket_loop_nonneg (R : Q) (bs : list (Q * Q)) :
  rates_within R bs -> forall x, 0 <= bracket_loop bs x 0.
Proof.
  induction 1 as [|p bs Hr Hbs IH]; intros x; [|destruct p as [l r]]; simpl in *.
  - lra.
  - destruct (Qlt_le_dec l x) as [Hlt|Hle].
    + rewrite bracket_loop_acc. specialize (IH l).
      assert (0 <= (x - l) * r) by (apply Qmult_le_0_compat; lra). lra.
    + apply IH.
Qed.

(** Raising the taxable amount by [d] raises the tax by between [0] and
    [R * d], [R] being the largest rate. *)
Lemma bracket_loop_lipschitz (R : Q) (bs : list (Q * Q)) :
  0 <= R -> rates_within R bs ->
  forall a b, a <= b ->
  0 <= bracket_loop bs b 0 - bracket_loop bs a 0 <= R * (b - a).
Proof.
  intros HR. induction 1 as [|p bs Hr Hbs IH]; intros a b Hab;
    [|destruct p as [l r]; simpl in Hr].
  - simpl. split; [lra|]. apply Qmult_le_0_compat; lra.
  - destruct (Qlt_le_dec l a) as [Hla|Hal].
    + rewrite !bracket_loop_step_above by lra.
      assert (r * (b - a) <= R * (b - a)) by (apply Qmult_le_compat_r; lra).
      assert (0 <= r * (b - a)) by (apply Qmult_le_0_compat; lra).
      assert ((b - l) * r - (a - l) * r == r * (b - a)) by ring.
      lra.
    + destruct (Qlt_le_dec l b) as [Hlb|Hbl].
      * rewrite bracket_loop_step_above by lra.
        rewrite bracket_loop_step_below by lra.
        destruct (IH a l Hal) as [H1 H2].
        assert (r * (b - l) <= R * (b - l)) by (apply Qmult_le_compat_r; lra).
        assert (0 <= r * (b - l)) by (apply Qmult_le_0_compat; lra).
        assert ((b - l) * r == r * (b - l)) by ring.
        assert (R * (b - l) + R * (l - a) == R * (b - a)) by ring.
        lra.
      * rewrite !bracket_loop_step_below by lra. apply IH; exact Hab.
Qed.

Lemma calculate_tax_lipschitz (a b : Q) :
  a <= b -> 0 <= calculate_tax b - calculate_tax a <= 0.30 * (b - a).
Proof.
  intros Hab. apply bracket_loop_lipschitz; [lra|apply brackets_rates|exact Hab].
Qed.

(** ** Claims about [calculate_tax] and the pipeline *)

(** C1 (as the specification states it): on grossSalary = 1,800,000 and
    npsPercent = 14 the tax would be 45,486.  The code's loop also charges
    the 10% and 5% slabs below 1,200,000, so the tax is 105,486. *)
Lemma C1_example_tax_counterexample :
  ~ (tax_amount (compute 1800000 14) == 45486).
Proof. vm_compute. discriminate. Qed.

(** C1 (amended): on grossSalary = 1,800,000 and npsPercent = 14 the pipeline
    yields basicSalary 720,000, employerNps 100,800, employerPf and employeePf
    86,400, gratuity 34,560, professionalTax 3,600, taxableAmount 1,503,240,
    taxAmount 105,486 (= 303,240 * 0.15 + 400,000 * 0.10 + 400,000 * 0.05),
    cessAmount 4,219.44 and netSalary 1,378,534.56. *)
Theorem C1_example_chain :
  let b := compute 1800000 14 in
  basic_salary b == 720000 /\
  employer_nps_contribution b == 100800 /\
  employer_pf_contribution b == 86400 /\
  employee_pf_contribution b == 86400 /\
  gratuity_contribution b == 34560 /\
  professional_tax b == 3600 /\
  taxable_amount b == 1503240 /\
  tax_amount b == calculate_tax 1503240 /\
  tax_amount b == 105486 /\
  cess_amount b == 4219.44 /\
  in_hand_salary b == 1378534.56.
Proof. vm_compute. repeat split; reflexivity. Qed.

(** C2: for every input the pipeline's fields follow the twelve formulas
    of the specification (each field in terms of the input and the fields
    before it). *)
Theorem C2_pipeline_formulas (grossSalary npsPercent : Q) :
  let b := compute grossSalary npsPercent in
  variable_pay b = grossSalary * 0.14 /\
  ctc_amount b = grossSalary + variable_pay b /\
  basic_salary b = grossSalary * 0.40 /\
  employer_nps_contribution b = (npsPercent / 100) * basic_salary b /\
  employer_pf_contribution b = 0.12 * basic_salary b /\
  employee_pf_contribution b = 0.12 * basic_salary b /\
  gratuity_contribution b = 0.048 * basic_salary b /\
  professional_tax b = 300 * 12 /\
  taxable_amount b = grossSalary - employer_nps_contribution b
    - employer_pf_contribution b - gratuity_contribution b - 75000 /\
  tax_amount b = calculate_tax (taxable_amount b) /\
  cess_amount b = 0.04 * tax_amount b /\
  in_hand_salary b = grossSalary - employer_nps_contribution b
    - employer_pf_contribution b - gratuity_contribution b
    - employee_pf_contribution b - professional_tax b - tax_amount b
    - cess_amount b.
Proof. cbv zeta. repeat split. Qed.

(** C3: [calculate_tax] is 0 on every amount up to 400,000 (negative ones
    included), non-negative on every non-negative amount, and
    [calculate_tax 400001 = 0.05]. *)
Theorem C3_tax_zero_nonneg_boundary :
  (forall x, x <= 400000 -> calculate_tax x == 0) /\
  (forall x, 0 <= x -> 0 <= calculate_tax x) /\
  calculate_tax 400001 == 0.05 * 1.
Proof.
  split; [|split].
  - intros x Hx. unfold calculate_tax, brackets.
    rewrite !bracket_loop_step_below by lra. reflexivity.
  - intros x _. apply (bracket_loop_nonneg 0.30), brackets_rates.
  - vm_compute. reflexivity.
Qed.

Lemma C3_tax_zero_nonneg_boundary_witness :
  calculate_tax (-5) == 0 /\ 0 <= calculate_tax 500000.
Proof.
  split.
  - apply (proj1 C3_tax_zero_nonneg_boundary). vm_compute. discriminate.
  - apply (proj1 (proj2 C3_tax_zero_nonneg_boundary)). vm_compute. discriminate.
Defined.

(** C4: [calculate_tax] is monotone on non-negative amounts. *)
Theorem C4_tax_monotone (a b : Q) :
  0 <= a -> 0 <= b -> a <= b -> calculate_tax a <= calculate_tax b.
Proof.
  intros _ _ Hab. destruct (calculate_tax_lipschitz a b Hab). lra.
Qed.

Lemma C4_tax_monotone_witness :
  calculate_tax 1000000 <= calculate_tax 3000000.
Proof. apply C4_tax_monotone; vm_compute; discriminate. Defined.

(** C10: for a fixed non-negative gross salary, a larger NPS percentage in
    [0, 14] never yields a larger net salary. *)
Theorem C10_net_antitone_in_nps (g p1 p2 : Q) :
  0 <= g -> 0 <= p1 -> p1 <= p2 -> p2 <= 14 ->
  in_hand_salary (compute g p2) <= in_hand_salary (compute g p1).
Proof.
  intros Hg Hp1 Hp12 Hp2. unfold compute; cbn [in_hand_salary].
  set (n1 := p1 / 100 * (g * 0.40)).
  set (n2 := p2 / 100 * (g * 0.40)).
  assert (Hn : n1 <= n2).
  { unfold n1, n2. apply Qmult_le_compat_r; [|lra].
    apply Qmult_le_compat_r; [exact Hp12|]. vm_compute; discriminate. }
  set (T1 := g - n1 - 0.12 * (g * 0.40) - 0.048 * (g * 0.40) - 75000).
  set (T2 := g - n2 - 0.12 * (g * 0.40) - 0.048 * (g * 0.40) - 75000).
  destruct (calculate_tax_lipschitz T2 T1) as [_ H]; [unfold T1, T2; lra|].
  assert (T1 - T2 == n2 - n1) by (unfold T1, T2; ring).
  lra.
Qed.

Lemma C10_net_antitone_in_nps_witness :
  in_hand_salary (compute 1800000 14) <= in_hand_salary (compute 1800000 0).
Proof. apply C10_net_antitone_in_nps; vm_compute; discriminate. Defined.

(** ** Properties of the grouping loop *)
Section GroupingLoop.
Local Open Scope nat_scope.

Lemma slice_drop_end_length (k : nat) (s : list ascii) :
  List.length (slice_drop_end k s) = List.length s - k.
Proof. unfold slice_drop_end. rewrite length_firstn. lia. Qed.

Lemma slice_from_end_length (k : nat) (s : list ascii) :
  List.length (slice_from_end k s) = Nat.min k (List.length s).
Proof. unfold slice_from_end. rewrite length_skipn. lia. Qed.

Lemma slice_split (k : nat) (s : list ascii) :
  slice_drop_end k s ++ slice_from_end k s = s.
Proof. apply firstn_skipn. Qed.

Lemma group_loop_nil (fuel : nat) (formatted : list ascii) :
  group_loop fuel [] formatted = formatted.
Proof. destruct fuel; reflexivity. Qed.

(** With a budget of at least [length integer_part] steps the loop has
    already stopped by itself: more fuel changes nothing. *)
Lemma group_loop_fuel_enough (n : nat) :
  forall ip f k, List.length ip <= n -> group_loop (n + k) ip f = group_loop n ip f.
Proof.
  induction n as [|n IH]; intros ip f k Hlen.
  - destruct ip; [|simpl in Hlen; lia]. rewrite group_loop_nil. reflexivity.
  - simpl. destruct (Nat.ltb 0 (List.length ip)) eqn:E; [|reflexivity].
    apply Nat.ltb_lt in E. apply IH. rewrite slice_drop_end_length. lia.
Qed.

(** ** The Indian grouping as the specification describes it *)

Lemma join_commas_snoc (gs : list (list ascii)) (g : list ascii) :
  gs <> [] -> join_commas (gs ++ [g]) = join_commas gs ++ ","%char :: g.
Proof.
  induction gs as [|g1 gs IH]; intros Hne; [congruence|].
  destruct gs as [|g2 gs]; [reflexivity|].
  change ((g1 :: g2 :: gs) ++ [g]) with (g1 :: ((g2 :: gs) ++ [g])).
  cbn [join_commas]. rewrite IH by discriminate.
  destruct ((g2 :: gs) ++ [g]) eqn:E; [destruct gs; discriminate|].
  rewrite <- app_assoc. reflexivity.
Qed.

Lemma group_loop_groups (n : nat) :
  forall ip f fuel, ip <> [] -> List.length ip <= n -> List.length ip <= fuel ->
  exists g0 mids,
    group_loop fuel ip f = join_commas ((g0 :: mids) ++ [f]) /\
    List.concat (g0 :: mids) = ip /\
    (List.length g0 = 1 \/ List.length g0 = 2)%nat /\
    Forall (fun g => List.length g = 2) mids.
Proof.
  induction n as [|n IH]; intros ip f fuel Hne Hn Hfuel.
  - destruct ip; [congruence|simpl in Hn; lia].
  - destruct fuel as [|fuel]; [destruct ip; [congruence|simpl in Hfuel; lia]|].
    assert (Hpos : 0 < List.length ip) by (destruct ip; [congruence|simpl; lia]).
    cbn [group_loop]. apply Nat.ltb_lt in Hpos as Hb. rewrite Hb.
    pose proof (slice_split 2 ip) as Hsplit.
    pose proof (slice_drop_end_length 2 ip) as Hrest.
    pose proof (slice_from_end_length 2 ip) as Hlast.
    destruct (slice_drop_end 2 ip) as [|c rest] eqn:Er.
    + rewrite group_loop_nil. exists (slice_from_end 2 ip), [].
      simpl in Hsplit, Hrest. split; [reflexivity|split; [|split]].
      * simpl. rewrite app_nil_r. exact Hsplit.
      * rewrite Hlast. lia.
      * constructor.
    + destruct (IH (c :: rest) (slice_from_end 2 ip ++ ","%char :: f) fuel)
        as (g0 & mids & Heq & Hcat & Hg0 & Hmids);
        [discriminate| simpl in Hrest |- *; lia | simpl in Hrest |- *; lia |].
      exists g0, (mids ++ [slice_from_end 2 ip]). repeat split.
      * rewrite Heq. rewrite join_commas_snoc by discriminate.
        rewrite join_commas_snoc by discriminate.
        rewrite (app_comm_cons mids). rewrite join_commas_snoc by discriminate.
        rewrite <- app_assoc. reflexivity.
      * rewrite app_comm_cons, List.concat_app, Hcat. simpl. rewrite app_nil_r.
        exact Hsplit.
      * exact Hg0.
      * apply Forall_app. split; [exact Hmids|].
        constructor; [|constructor]. simpl in Hrest. lia.
Qed.

End GroupingLoop.

(** ** Rounding and the [:.2f] rendering *)

Lemma digits_of_Z_digits (n : Z) : Forall (fun c => is_digit c = true) (digits_of_Z n).
Proof.
  unfold digits_of_Z. generalize (N.to_uint (Z.to_N n)) as u.
  assert (H : forall u, Forall (fun c => is_digit c = true)
                (list_ascii_of_string (NilEmpty.string_of_uint u))).
  { induction u; simpl; constructor; auto. }
  intros u. destruct u; [simpl; repeat constructor|..]; apply H.
Qed.

Lemma digit_is_digit (n : Z) : (0 <= n < 10)%Z -> is_digit (digit n) = true.
Proof.
  intros Hn. unfold is_digit, digit.
  rewrite nat_ascii_embedding by lia.
  apply andb_true_intro; split; apply Nat.leb_le; lia.
Qed.

Lemma partition_dot_digits (ds rest : list ascii) :
  Forall (fun c => is_digit c = true) ds ->
  partition_dot (ds ++ "."%char :: rest) = (ds, ["."%char], rest).
Proof.
  induction 1 as [|c ds Hc Hds IH]; [reflexivity|].
  simpl. rewrite IH.
  destruct (Ascii.eqb c ".") eqn:E; [|reflexivity].
  apply Ascii.eqb_eq in E. subst c. discriminate.
Qed.

Lemma round_half_even_scaled (m : Z) : round_half_even ((m # 100) * 100) = m.
Proof.
  unfold round_half_even. cbn [Qmult Qnum Qden]. change (Zpos (100 * 1)) with 100%Z.
  rewrite Z.div_mul, Z.mod_mul by lia. reflexivity.
Qed.

Lemma round_half_even_opp (q : Q) : round_half_even (- q) = (- round_half_even q)%Z.
Proof.
  destruct q as [n d]. unfold round_half_even, Qopp. cbn [Qnum Qden].
  set (D := Zpos d).
  assert (HD : (0 < D)%Z) by (unfold D; lia).
  destruct (Z.eq_dec (n mod D) 0) as [Hz|Hnz].
  - rewrite Z.div_opp_l_z, Z.mod_opp_l_z, Hz by lia. simpl.
    destruct D; [lia|reflexivity|lia].
  - rewrite Z.div_opp_l_nz, Z.mod_opp_l_nz by lia.
    pose proof (Z.mod_pos_bound n D HD) as Hb.
    destruct (Z.compare_spec (2 * (n mod D)) D) as [E|E|E];
      destruct (Z.compare_spec (2 * (D - n mod D)) D) as [E'|E'|E']; try lia.
    destruct (Z.even (n / D)) eqn:Ev;
      rewrite Z.even_sub, Z.even_opp, Ev; simpl; lia.
Qed.

Lemma Qopp_mult_100 (x : Q) : (- x) * 100 = - (x * 100).
Proof. destruct x as [n d]. unfold Qopp, Qmult. simpl. rewrite Z.mul_opp_l. reflexivity. Qed.

Lemma indian_number_format_eq (amount : Q) :
  indian_number_format amount =
  (if Qlt_le_dec amount 0 then ["-"%char] else [])
    ++ grouped (digits_of_Z (cents amount / 100))
    ++ "."%char :: [digit ((cents amount mod 100) / 10); digit (cents amount mod 10)].
Proof.
  unfold indian_number_format, py_round2, format_2f. cbn [Qabs].
  rewrite round_half_even_scaled, Z.abs_idemp.
  destruct (Qlt_le_dec (Z.abs (round_half_even (amount * 100)) # 100) 0) as [Hneg|_].
  { exfalso. unfold Qlt in Hneg. simpl in Hneg. lia. }
  rewrite app_nil_l, partition_dot_digits by apply digits_of_Z_digits.
  fold (cents amount). unfold grouped.
  destruct (Qlt_le_dec amount 0); reflexivity.
Qed.

Lemma grouped_indian (ds : list ascii) : indian_grouped ds (grouped ds).
Proof.
  unfold grouped, indian_grouped.
  destruct (Nat.leb (List.length ds) 3) eqn:E.
  - apply Nat.leb_le in E. exists [ds]. split; [reflexivity|split].
    + simpl. apply app_nil_r.
    + left. split; [exact E|reflexivity].
  - apply Nat.leb_gt in E.
    destruct (group_loop_groups (List.length (slice_drop_end 3 ds))
                (slice_drop_end 3 ds) (slice_from_end 3 ds) (List.length ds))
      as (g0 & mids & Heq & Hcat & Hg0 & Hmids).
    + intros Hnil. pose proof (slice_drop_end_length 3 ds) as Hl.
      rewrite Hnil in Hl. simpl in Hl. lia.
    + lia.
    + rewrite slice_drop_end_length. lia.
    + exists ((g0 :: mids) ++ [slice_from_end 3 ds]). split; [exact Heq|split].
      * rewrite List.concat_app, Hcat. simpl. rewrite app_nil_r. apply slice_split.
      * right. split; [exact E|].
        exists g0, mids, (slice_from_end 3 ds). repeat split; auto.
        rewrite slice_from_end_length. lia.
Qed.

Lemma cents_opp (x : Q) : cents (- x) = cents x.
Proof. unfold cents. rewrite Qopp_mult_100, round_half_even_opp, Z.abs_opp. reflexivity. Qed.

Lemma round_half_even_small_negative (amount : Q) :
  -0.005 < amount -> amount < 0 -> round_half_even (amount * 100) = 0%Z.
Proof.
  destruct amount as [n d]. unfold Qlt. cbn [Qnum Qden]. intros H1 H2.
  unfold round_half_even. cbn [Qmult Qnum Qden]. rewrite Pos.mul_1_r.
  set (D := Zpos d) in *.
  assert (Hq : (-1 = (n * 100) / D)%Z).
  { apply Z.div_unique with (r := (n * 100 + D)%Z); lia. }
  assert (Hr : (n * 100 + D = (n * 100) mod D)%Z).
  { apply Z.mod_unique with (q := (-1)%Z); lia. }
  rewrite <- Hq, <- Hr.
  destruct (Z.compare_spec (2 * (n * 100 + D)) D); lia.
Qed.

(** ** Claims about [indian_number_format] and the In-Hand table *)

(** C5: every non-negative amount is rendered as the Indian grouping of the
    integer part of its value rounded to cents, a point, and exactly two
    digits; four examples of the specification. *)
Theorem C5_indian_grouping :
  (forall amount, 0 <= amount ->
     exists ip d1 d2,
       indian_number_format amount = ip ++ "."%char :: [d1; d2] /\
       indian_grouped (digits_of_Z (round_half_even (amount * 100) / 100)) ip /\
       is_digit d1 = true /\ is_digit d2 = true) /\
  indian_number_format 1234567.89 = list_ascii_of_string "12,34,567.89" /\
  indian_number_format 999.5 = list_ascii_of_string "999.50" /\
  indian_number_format 100000 = list_ascii_of_string "1,00,000.00" /\
  indian_number_format 123456789 = list_ascii_of_string "12,34,56,789.00".
Proof.
  split; [|vm_compute; repeat split].
  intros amount Hpos. rewrite indian_number_format_eq.
  destruct (Qlt_le_dec amount 0) as [Hneg|_]; [lra|].
  assert (Hk : (0 <= round_half_even (amount * 100))%Z).
  { unfold round_half_even.
    assert (0 <= Qnum (amount * 100))%Z.
    { destruct amount as [n d]. unfold Qle in Hpos. simpl in Hpos |- *. lia. }
    pose proof (Z.mod_pos_bound (Qnum (amount * 100)) (Zpos (Qden (amount * 100)))).
    pose proof (Z.div_pos (Qnum (amount * 100)) (Zpos (Qden (amount * 100)))).
    destruct (2 * _ ?= _)%Z; [destruct Z.even|..]; lia. }
  assert (Hc : cents amount = round_half_even (amount * 100)) by (apply Z.abs_eq; exact Hk).
  exists (grouped (digits_of_Z (cents amount / 100))),
    (digit ((cents amount mod 100) / 10)), (digit (cents amount mod 10)).
  pose proof (Z.mod_pos_bound (cents amount) 100 ltac:(lia)).
  pose proof (Z.mod_pos_bound (cents amount) 10 ltac:(lia)).
  split; [reflexivity|split; [rewrite <- Hc; apply grouped_indian|split]];
    apply digit_is_digit; [|lia].
  split; [apply Z.div_pos; lia|apply Z.div_lt_upper_bound; lia].
Qed.

Lemma C5_indian_grouping_witness :
  exists ip d1 d2,
    indian_number_format 5 = ip ++ "."%char :: [d1; d2] /\
    indian_grouped (digits_of_Z (round_half_even (5 * 100) / 100)) ip /\
    is_digit d1 = true /\ is_digit d2 = true.
Proof. apply (proj1 C5_indian_grouping 5). vm_compute. discriminate. Defined.

(** C6: the sign law: [format (-x) = "-" ++ format x] for every [x > 0], and
    [format 0 = "0.00"]. *)
Theorem C6_sign_law :
  (forall x, 0 < x -> indian_number_format (- x) = "-"%char :: indian_number_format x) /\
  indian_number_format 0 = list_ascii_of_string "0.00".
Proof.
  split; [|reflexivity].
  intros x Hx. rewrite !indian_number_format_eq, cents_opp.
  destruct (Qlt_le_dec (- x) 0) as [_|H1]; [|lra].
  destruct (Qlt_le_dec x 0) as [H2|_]; [lra|].
  reflexivity.
Qed.

Lemma C6_sign_law_witness :
  indian_number_format (Qopp 1234.5) = "-"%char :: indian_number_format 1234.5.
Proof. apply (proj1 C6_sign_law). vm_compute. reflexivity. Defined.

(** C9: a negative amount that rounds to zero cents is rendered "-0.00";
    this covers every amount in (-0.005, 0). *)
Theorem C9_signed_zero :
  (forall amount, amount < 0 -> py_round2 amount == 0 ->
     indian_number_format amount = list_ascii_of_string "-0.00") /\
  (forall amount, -0.005 < amount -> amount < 0 ->
     indian_number_format amount = list_ascii_of_string "-0.00").
Proof.
  assert (Hzero : forall amount, amount < 0 -> round_half_even (amount * 100) = 0%Z ->
            indian_number_format amount = list_ascii_of_string "-0.00").
  { intros amount Hneg Hr. rewrite indian_number_format_eq.
    destruct (Qlt_le_dec amount 0) as [_|H]; [|lra].
    unfold cents. rewrite Hr. reflexivity. }
  split.
  - intros amount Hneg Hr. apply Hzero; [exact Hneg|].
    unfold py_round2, Qeq in Hr. simpl in Hr. lia.
  - intros amount H1 H2. apply Hzero; [exact H2|].
    apply round_half_even_small_negative; assumption.
Qed.

Lemma C9_signed_zero_witness :
  indian_number_format (-0.001) = list_ascii_of_string "-0.00" /\
  indian_number_format (-0.004) = list_ascii_of_string "-0.00".
Proof.
  split.
  - apply (proj1 C9_signed_zero); vm_compute; reflexivity.
  - apply (proj2 C9_signed_zero); vm_compute; reflexivity.
Defined.

(** C7: every row of the In-Hand table shows the yearly amount and the
    yearly amount divided by 12, each rendered (and rounded) on its own; so
    the monthly figure times 12 can differ from the yearly figure: for a gross
    salary of 100 the Gross Salary row reads "100.00" and "8.33", and
    8.33 * 12 = 99.96. *)
Theorem C7_monthly_is_yearly_div_12 :
  (forall g p,
     inhand_table g p =
     map (fun v => (indian_number_format v, indian_number_format (v / 12)))
       (let b := compute g p in
        [ ctc_amount b; g; taxable_amount b; tax_amount b; cess_amount b;
          employer_nps_contribution b + employer_pf_contribution b
            + employee_pf_contribution b;
          in_hand_salary b ])) /\
  nth 1 (inhand_table 100 14) ([], []) =
    (list_ascii_of_string "100.00", list_ascii_of_string "8.33") /\
  ~ (py_round2 (100 / 12) * 12 == py_round2 100).
Proof.
  split; [reflexivity|split].
  - vm_compute. reflexivity.
  - vm_compute. discriminate.
Qed.

(** C8: termination.  The tax loop runs over a fixed list of 6 brackets;
    each pass of the grouping loop strictly shortens the remaining integer
    part; and a budget of [length integer_part] passes is always enough (the
    loop has stopped by then: more passes change nothing). *)
Theorem C8_termination :
  List.length brackets = 6%nat /\
  (forall ip, (0 < List.length ip)%nat ->
     (List.length (slice_drop_end 2 ip) < List.length ip)%nat) /\
  (forall ip f k,
     group_loop (List.length ip + k) ip f = group_loop (List.length ip) ip f).
Proof.
  split; [reflexivity|split].
  - intros ip H. rewrite slice_drop_end_length. lia.
  - intros ip f k. apply group_loop_fuel_enough. lia.
Qed.

Lemma C8_termination_witness :
  (List.length (slice_drop_end 2 (list_ascii_of_string "12345")) < 5)%nat.
Proof.
  apply (proj1 (proj2 C8_termination) (list_ascii_of_string "12345")).
  vm_compute. lia.
Defined.

(** ** Further properties of [calculate_tax] and the pipeline *)

Lemma slab_below (lo hi rate x : Q) : x <= lo -> slab lo hi rate x = 0.
Proof. intros H. unfold slab. destruct (Qlt_le_dec lo x); [lra|reflexivity]. Qed.

Lemma slab_mid (lo hi rate x : Q) :
  lo < x -> x <= hi -> slab lo hi rate x = rate * (x - lo).
Proof.
  intros H1 H2. unfold slab.
  destruct (Qlt_le_dec lo x); [|lra]. destruct (Qlt_le_dec hi x); [lra|reflexivity].
Qed.

Lemma slab_above (lo hi rate x : Q) :
  lo < hi -> hi < x -> slab lo hi rate x = rate * (hi - lo).
Proof.
  intros H1 H2. unfold slab.
  destruct (Qlt_le_dec lo x); [|lra]. destruct (Qlt_le_dec hi x); [reflexivity|lra].
Qed.

Lemma top_slab_below (lo rate x : Q) : x <= lo -> top_slab lo rate x = 0.
Proof. intros H. unfold top_slab. destruct (Qlt_le_dec lo x); [lra|reflexivity]. Qed.

Lemma top_slab_above (lo rate x : Q) : lo < x -> top_slab lo rate x = rate * (x - lo).
Proof. intros H. unfold top_slab. destruct (Qlt_le_dec lo x); [reflexivity|lra]. Qed.

Lemma calculate_tax_zero_below (x : Q) : x <= 400000 -> calculate_tax x == 0.
Proof.
  intros Hx. unfold calculate_tax, brackets.
  rewrite !bracket_loop_step_below by lra. reflexivity.
Qed.

Ltac tax_case :=
  unfold calculate_tax, tax_by_slabs, brackets;
  repeat first [ rewrite bracket_loop_step_above by lra
               | rewrite bracket_loop_step_below by lra ];
  repeat first [ rewrite slab_below by lra
               | rewrite slab_mid by lra
               | rewrite slab_above by lra
               | rewrite top_slab_below by lra
               | rewrite top_slab_above by lra ];
  cbn [bracket_loop]; lra.

(** X1: [calculate_tax] is the sum of marginal slab taxes: 5% of the part of
    the amount in (4 L, 8 L], 10% of the part in (8 L, 12 L], 15%, 20%, 25%
    for the next slabs and 30% of the part above 24 L. *)
Theorem X1_tax_by_slabs (x : Q) : calculate_tax x == tax_by_slabs x.
Proof.
  destruct (Qlt_le_dec 2400000 x); [tax_case|].
  destruct (Qlt_le_dec 2000000 x); [tax_case|].
  destruct (Qlt_le_dec 1600000 x); [tax_case|].
  destruct (Qlt_le_dec 1200000 x); [tax_case|].
  destruct (Qlt_le_dec 800000 x); [tax_case|].
  destruct (Qlt_le_dec 400000 x); tax_case.
Qed.

(** X2: above 24 L the tax is 3 L plus 30% of the excess over 24 L. *)
Theorem X2_tax_top_bracket (x : Q) :
  2400000 < x -> calculate_tax x == 300000 + 0.30 * (x - 2400000).
Proof. intros H. tax_case. Qed.

Lemma X2_tax_top_bracket_witness : calculate_tax 3000000 == 300000 + 0.30 * (3000000 - 2400000).
Proof. apply X2_tax_top_bracket. vm_compute. reflexivity. Defined.

(** X3: the marginal rate never exceeds 30%: raising the taxable amount by
    [d >= 0] raises the tax by at most [0.30 * d]. *)
Theorem X3_tax_marginal_rate_bound (a b : Q) :
  a <= b -> calculate_tax b - calculate_tax a <= 0.30 * (b - a).
Proof. intros H. apply (calculate_tax_lipschitz a b H). Qed.

Lemma X3_tax_marginal_rate_bound_witness :
  calculate_tax 2500000 - calculate_tax 1000000 <= 0.30 * (2500000 - 1000000).
Proof. apply X3_tax_marginal_rate_bound. vm_compute. discriminate. Defined.

(** X4: the tax never exceeds 30% of the part of the amount above 4 L. *)
Theorem X4_tax_at_most_30_percent_above_exemption (x : Q) :
  400000 <= x -> calculate_tax x <= 0.30 * (x - 400000).
Proof.
  intros H. destruct (calculate_tax_lipschitz 400000 x H) as [_ H2].
  rewrite (calculate_tax_zero_below 400000) in H2 by lra. lra.
Qed.

Lemma X4_tax_at_most_30_percent_above_exemption_witness :
  calculate_tax 1503240 <= 0.30 * (1503240 - 400000).
Proof. apply X4_tax_at_most_30_percent_above_exemption. vm_compute. discriminate. Defined.

(** X5: a gross salary of at most 5 L pays neither income tax nor cess,
    whatever the NPS percentage in [0, 14]. *)
Theorem X5_no_tax_up_to_5_lakh (g p : Q) :
  0 <= g -> g <= 500000 -> 0 <= p -> p <= 14 ->
  tax_amount (compute g p) == 0 /\ cess_amount (compute g p) == 0.
Proof.
  intros Hg1 Hg2 Hp1 Hp2. unfold compute; cbn [tax_amount cess_amount].
  assert (Hn : 0 <= p / 100 * (g * 0.40)).
  { apply Qmult_le_0_compat; [|lra].
    apply Qmult_le_0_compat; [exact Hp1|vm_compute; discriminate]. }
  rewrite calculate_tax_zero_below by lra. split; [reflexivity|ring].
Qed.

Lemma X5_no_tax_up_to_5_lakh_witness :
  tax_amount (compute 500000 0) == 0 /\ cess_amount (compute 500000 0) == 0.
Proof. apply X5_no_tax_up_to_5_lakh; vm_compute; discriminate. Defined.

(** X6: for a non-negative salary and NPS percentage, the net salary is at
    most the gross salary less the 3,600 professional tax (every other
    deduction is non-negative). *)
Theorem X6_net_at_most_gross_minus_ptax (g p : Q) :
  0 <= g -> 0 <= p -> in_hand_salary (compute g p) <= g - 3600.
Proof.
  intros Hg Hp. unfold compute; cbn [in_hand_salary].
  assert (Hn : 0 <= p / 100 * (g * 0.40)).
  { apply Qmult_le_0_compat; [|lra].
    apply Qmult_le_0_compat; [exact Hp|vm_compute; discriminate]. }
  match goal with |- context [calculate_tax ?t] =>
    pose proof (bracket_loop_nonneg 0.30 brackets brackets_rates t) end.
  unfold calculate_tax. lra.
Qed.

Lemma X6_net_at_most_gross_minus_ptax_witness :
  in_hand_salary (compute 1800000 14) <= 1800000 - 3600.
Proof. apply X6_net_at_most_gross_minus_ptax; vm_compute; discriminate. Defined.

(** X7: for an NPS percentage in [0, 14], a larger gross salary never
    yields a smaller net salary. *)
Theorem X7_net_monotone_in_gross (g1 g2 p : Q) :
  0 <= p -> p <= 14 -> g1 <= g2 ->
  in_hand_salary (compute g1 p) <= in_hand_salary (compute g2 p).
Proof.
  intros Hp1 Hp2 Hg. unfold compute; cbn [in_hand_salary].
  set (n1 := p / 100 * (g1 * 0.40)).
  set (n2 := p / 100 * (g2 * 0.40)).
  assert (Hdn : n2 - n1 == (p * 0.004) * (g2 - g1)) by (unfold n1, n2; field).
  assert (Hb1 : 0 <= (p * 0.004) * (g2 - g1)) by (apply Qmult_le_0_compat; lra).
  assert (Hb2 : (p * 0.004) * (g2 - g1) <= 0.056 * (g2 - g1))
    by (apply Qmult_le_compat_r; lra).
  set (T1 := g1 - n1 - 0.12 * (g1 * 0.40) - 0.048 * (g1 * 0.40) - 75000).
  set (T2 := g2 - n2 - 0.12 * (g2 * 0.40) - 0.048 * (g2 * 0.40) - 75000).
  destruct (calculate_tax_lipschitz T1 T2) as [_ H]; [unfold T1, T2; lra|].
  unfold T1, T2 in *. lra.
Qed.

Lemma X7_net_monotone_in_gross_witness :
  in_hand_salary (compute 1000000 14) <= in_hand_salary (compute 3000000 14).
Proof. apply X7_net_monotone_in_gross; vm_compute; discriminate. Defined.

(** ** Further properties of [indian_number_format] *)

Lemma round_half_even_nonneg (a : Q) : 0 <= a -> (0 <= round_half_even (a * 100))%Z.
Proof.
  intros Hpos. unfold round_half_even.
  assert (0 <= Qnum (a * 100))%Z.
  { destruct a as [n d]. unfold Qle in Hpos. simpl in Hpos |- *. lia. }
  pose proof (Z.mod_pos_bound (Qnum (a * 100)) (Zpos (Qden (a * 100)))).
  pose proof (Z.div_pos (Qnum (a * 100)) (Zpos (Qden (a * 100)))).
  destruct (2 * _ ?= _)%Z; [destruct Z.even|..]; lia.
Qed.

Lemma round_half_even_nonpos (a : Q) : a < 0 -> (round_half_even (a * 100) <= 0)%Z.
Proof.
  intros Hneg. unfold round_half_even.
  set (n := Qnum (a * 100)). set (D := Zpos (Qden (a * 100))).
  assert (Hn : (n < 0)%Z).
  { unfold n. destruct a as [m d]. unfold Qlt in Hneg. simpl in Hneg |- *. lia. }
  assert (HD : (0 < D)%Z) by (unfold D; lia).
  pose proof (Z.div_mod n D ltac:(lia)).
  pose proof (Z.mod_pos_bound n D HD).
  assert (n / D < 0)%Z by nia.
  destruct (2 * _ ?= _)%Z; [destruct Z.even|..]; lia.
Qed.

Lemma filter_all (f : ascii -> bool) (l : list ascii) :
  Forall (fun c => f c = true) l -> filter f l = l.
Proof. induction 1; simpl; [reflexivity|]. rewrite H, IHForall. reflexivity. Qed.

Lemma digit_not_comma (c : ascii) :
  is_digit c = true -> negb (Ascii.eqb c ","%char) = true.
Proof.
  intros H. destruct (Ascii.eqb c ",") eqn:E; [|reflexivity].
  apply Ascii.eqb_eq in E. subst c. discriminate.
Qed.

Lemma join_commas_chars (gs : list (list ascii)) :
  Forall (fun c => is_digit c = true) (List.concat gs) ->
  Forall (fun c => is_digit c || Ascii.eqb c ","%char = true) (join_commas gs) /\
  remove_commas (join_commas gs) = List.concat gs.
Proof.
  induction gs as [|g gs IH]; intros H; [split; [constructor|reflexivity]|].
  simpl in H. apply Forall_app in H as [Hg Hgs].
  assert (Hg' : Forall (fun c => is_digit c || Ascii.eqb c ","%char = true) g).
  { eapply Forall_impl; [|exact Hg]. intros c Hc. rewrite Hc. reflexivity. }
  assert (Hf : remove_commas g = g).
  { apply filter_all. eapply Forall_impl; [|exact Hg]. exact digit_not_comma. }
  destruct (IH Hgs) as [IH1 IH2].
  destruct gs as [|g2 gs].
  - simpl. rewrite app_nil_r. split; assumption.
  - change (join_commas (g :: g2 :: gs)) with (g ++ ","%char :: join_commas (g2 :: gs)).
    split.
    + apply Forall_app. split; [exact Hg'|]. constructor; [reflexivity|exact IH1].
    + unfold remove_commas in *. rewrite filter_app, Hf.
      change (filter ?f (","%char :: ?l)) with (filter f l).
      rewrite IH2. reflexivity.
Qed.

Lemma grouped_chars (ds : list ascii) :
  Forall (fun c => is_digit c = true) ds ->
  Forall (fun c => is_digit c || Ascii.eqb c ","%char = true) (grouped ds) /\
  remove_commas (grouped ds) = ds.
Proof.
  intros H. destruct (grouped_indian ds) as (gs & Hout & Hcat & _).
  rewrite Hout, <- Hcat. apply join_commas_chars. rewrite Hcat. exact H.
Qed.

Lemma digits_of_Z_inj (m n : Z) :
  (0 <= m)%Z -> (0 <= n)%Z -> digits_of_Z m = digits_of_Z n -> m = n.
Proof.
  intros Hm Hn H. unfold digits_of_Z in H.
  apply (f_equal string_of_list_ascii) in H.
  rewrite !string_of_list_ascii_of_string in H.
  assert (Hparse : forall u, option_map N.of_uint
            (NilZero.uint_of_string (NilZero.string_of_uint u)) = Some (N.of_uint u)).
  { intros u. destruct u; [reflexivity|..];
      rewrite NilZero.usu by discriminate; reflexivity. }
  pose proof (Hparse (N.to_uint (Z.to_N m))) as Pm.
  pose proof (Hparse (N.to_uint (Z.to_N n))) as Pn.
  rewrite H, Pn, !DecimalN.Unsigned.of_to in Pm.
  injection Pm as Pm. lia.
Qed.

Lemma digit_inj (m n : Z) :
  (0 <= m < 10)%Z -> (0 <= n < 10)%Z -> digit m = digit n -> m = n.
Proof.
  intros Hm Hn H. apply (f_equal nat_of_ascii) in H. unfold digit in H.
  rewrite !nat_ascii_embedding in H by lia. lia.
Qed.

Lemma partition_dot_nodot (ds rest : list ascii) :
  Forall (fun c => not_dot c = true) ds ->
  partition_dot (ds ++ "."%char :: rest) = (ds, ["."%char], rest).
Proof.
  induction 1 as [|c ds Hc Hds IH]; [reflexivity|].
  simpl. rewrite IH. unfold not_dot in Hc.
  destruct (Ascii.eqb c "."); [discriminate|reflexivity].
Qed.

Lemma cents_nonneg (a : Q) : (0 <= cents a)%Z.
Proof. apply Z.abs_nonneg. Qed.

Lemma rendered_int_chars (c : Z) :
  Forall (fun ch => is_digit ch || Ascii.eqb ch ","%char = true)
    (grouped (digits_of_Z (c / 100))) /\
  remove_commas (grouped (digits_of_Z (c / 100))) = digits_of_Z (c / 100).
Proof. apply grouped_chars, digits_of_Z_digits. Qed.

Lemma rendered_int_nodot (c : Z) :
  Forall (fun ch => not_dot ch = true) (grouped (digits_of_Z (c / 100))).
Proof.
  eapply Forall_impl; [|apply (proj1 (rendered_int_chars c))].
  intros ch H. unfold not_dot. destruct (Ascii.eqb ch ".") eqn:E; [|reflexivity].
  apply Ascii.eqb_eq in E. subst ch. discriminate.
Qed.

Lemma rendered_not_minus (c : Z) (rest rest' : list ascii) :
  grouped (digits_of_Z (c / 100)) ++ "."%char :: rest <> "-"%char :: rest'.
Proof.
  pose proof (proj1 (rendered_int_chars c)) as H.
  destruct (grouped (digits_of_Z (c / 100))) as [|ch l]; [discriminate|].
  intros E. injection E as E _. subst ch. inversion H. discriminate.
Qed.

(** X8: the rendering depends only on the sign of the amount and its value
    rounded to 2 decimals: two amounts with the same sign whose
    [round(amount, 2)] agree render identically. *)
Theorem X8_format_depends_on_sign_and_rounding (a b : Q) :
  (a < 0 <-> b < 0) -> py_round2 a == py_round2 b ->
  indian_number_format a = indian_number_format b.
Proof.
  intros Hs Hr. unfold py_round2, Qeq in Hr. cbn [Qnum Qden] in Hr.
  assert (Hk : round_half_even (a * 100) = round_half_even (b * 100)) by lia.
  rewrite !indian_number_format_eq. unfold cents. rewrite Hk.
  destruct (Qlt_le_dec a 0) as [Ha|Ha], (Qlt_le_dec b 0) as [Hb|Hb];
    try reflexivity; exfalso; [apply Hs in Ha | apply Hs in Hb]; lra.
Qed.

Lemma X8_format_depends_on_sign_and_rounding_witness :
  indian_number_format 1234.567 = indian_number_format 1234.574.
Proof.
  apply X8_format_depends_on_sign_and_rounding.
  - split; intros H; exfalso; revert H; vm_compute; discriminate.
  - vm_compute. reflexivity.
Defined.

Lemma rendered_body_inj (ca cb : Z) :
  (0 <= ca)%Z -> (0 <= cb)%Z ->
  grouped (digits_of_Z (ca / 100))
    ++ "."%char :: [digit ((ca mod 100) / 10); digit (ca mod 10)] =
  grouped (digits_of_Z (cb / 100))
    ++ "."%char :: [digit ((cb mod 100) / 10); digit (cb mod 10)] ->
  ca = cb.
Proof.
  intros Ha Hb H.
  apply (f_equal partition_dot) in H.
  rewrite !partition_dot_nodot in H by apply rendered_int_nodot.
  injection H as HG Hd1 Hd2.
  apply (f_equal remove_commas) in HG.
  rewrite !(proj2 (rendered_int_chars _)) in HG.
  apply digits_of_Z_inj in HG; [|apply Z.div_pos; lia..].
  pose proof (Z.mod_pos_bound ca 100 ltac:(lia)).
  pose proof (Z.mod_pos_bound cb 100 ltac:(lia)).
  apply digit_inj in Hd1;
    [|split; [apply Z.div_pos; lia|apply Z.div_lt_upper_bound; lia]..].
  apply digit_inj in Hd2; [|apply Z.mod_pos_bound; lia..].
  assert (Hmm : forall x, ((x mod 100) mod 10 = x mod 10)%Z).
  { intros x. rewrite (Z.mod_eq x 100) by lia.
    replace (x - 100 * (x / 100))%Z with (x + (- (10 * (x / 100))) * 10)%Z by ring.
    apply Z.mod_add. lia. }
  pose proof (Z.div_mod ca 100 ltac:(lia)). pose proof (Z.div_mod cb 100 ltac:(lia)).
  pose proof (Z.div_mod (ca mod 100) 10 ltac:(lia)).
  pose proof (Z.div_mod (cb mod 100) 10 ltac:(lia)).
  rewrite !Hmm in *. lia.
Qed.

(** X9: the rendering loses nothing beyond rounding: two amounts that
    render to the same string have the same sign and the same value
    rounded to 2 decimals. *)
Theorem X9_format_determines_sign_and_rounding (a b : Q) :
  indian_number_format a = indian_number_format b ->
  (a < 0 <-> b < 0) /\ py_round2 a == py_round2 b.
Proof.
  intros H. rewrite !indian_number_format_eq in H.
  pose proof (cents_nonneg a) as Ca. pose proof (cents_nonneg b) as Cb.
  destruct (Qlt_le_dec a 0) as [Ha|Ha], (Qlt_le_dec b 0) as [Hb|Hb];
    cbn [app] in H.
  - injection H as H. apply rendered_body_inj in H; [|assumption..].
    split; [tauto|].
    pose proof (round_half_even_nonpos a Ha). pose proof (round_half_even_nonpos b Hb).
    unfold cents in H. unfold py_round2.
    replace (round_half_even (a * 100)) with (round_half_even (b * 100)) by lia.
    reflexivity.
  - symmetry in H. apply rendered_not_minus in H as [].
  - apply rendered_not_minus in H as [].
  - apply rendered_body_inj in H; [|assumption..].
    split; [split; intros; lra|].
    pose proof (round_half_even_nonneg a Ha). pose proof (round_half_even_nonneg b Hb).
    unfold cents in H. unfold py_round2.
    replace (round_half_even (a * 100)) with (round_half_even (b * 100)) by lia.
    reflexivity.
Qed.

Lemma X9_format_determines_sign_and_rounding_witness :
  (Qopp 0.001 < 0 <-> Qopp 0.004 < 0) /\ py_round2 (Qopp 0.001) == py_round2 (Qopp 0.004).
Proof. apply X9_format_determines_sign_and_rounding. vm_compute. reflexivity. Defined.
